(** * Supabase SSR glue: provider, session mirror and cookie bridge

    A shallow embedding of
      - [packages/app/provider/auth/AuthProvider.tsx]
        ([AuthProvider], [useSupabaseClient]),
      - [packages/app/utils/supabase/useSessionContext.ts]
        ([useSessionContext]),
      - the cookie methods handed to [createServerClient] in
        [apps/next/middleware.ts] and [packages/api/src/trpc.ts].

    The vendor SDK and the frameworks are not part of the repository.  The
    vendor constructors are section variables and the cookie stores an
    interface; React's [useState], [useContext] and effect life cycle, the
    settling of a promise and the framework's cookie jars are modelled by
    small definitions next to the code that uses them. *)

From stdpp Require Import gmap strings list fin_maps.

Set Default Proof Using "Type".

(** ** JavaScript completions and a state-and-exception monad *)

Module Js.

(** [new Error(message)] *)
Inductive Error : Type := mkError (message : string).

(** How a call ends: it returns a value or it throws. *)
Inductive completion (A : Type) : Type :=
| Returned (a : A)
| Threw (e : Error).
Global Arguments Returned {A} a.
Global Arguments Threw {A} e.

(** A computation over the mutable objects [S] it can reach.  What was
    written before a throw stays written. *)
Definition M (S A : Type) : Type := S → completion A * S.

Definition ret {S A} (a : A) : M S A := λ s, (Returned a, s).

Definition bind {S A B} (m : M S A) (k : A → M S B) : M S B :=
  λ s, match m s with
       | (Returned a, s') => k a s'
       | (Threw e, s') => (Threw e, s')
       end.

(** Lift a call whose completion depends on the object only. *)
Definition call {S A} (f : S → completion A) : M S A := λ s, (f s, s).

(** Replace the object by the one a call returns; a throw leaves it. *)
Definition update {S} (f : S → completion S) : M S () :=
  λ s, match f s with
       | Returned s' => (Returned (), s')
       | Threw e => (Threw e, s)
       end.

Definition did_throw {A} (c : completion A) : bool :=
  match c with Threw _ => true | Returned _ => false end.

End Js.
Export Js.

Declare Scope js_scope.
Delimit Scope js_scope with js.
Notation "x <- c1 ;; c2" := (bind c1 (λ x, c2))
  (at level 100, c1 at next level, right associativity) : js_scope.
Notation "c1 ;; c2" := (bind c1 (λ _, c2))
  (at level 100, right associativity) : js_scope.
Open Scope js_scope.

(** [array.forEach(f)]: the callback runs on each element in order; the first
    throw ends the loop. *)
Fixpoint forEach {S A} (f : A → M S ()) (l : list A) : M S () :=
  match l with
  | [] => ret ()
  | x :: l' => f x ;; forEach f l'
  end.

(** ** React: context, state slots *)

Module React.

Section Context.
Context {V : Type}.

(** The components above a call site, innermost first.  A
    [<Context.Provider value=...>] publishes a value; any other component
    publishes none. *)
Inductive frame : Type :=
| ContextProvider (value : V)
| OtherComponent.

(** [useContext(Context)] for [createContext(undefined)]: the value of
    the nearest enclosing provider, [undefined] when there is none. *)
Fixpoint useContext (ancestors : list frame) : option V :=
  match ancestors with
  | [] => None
  | ContextProvider value :: _ => Some value
  | OtherComponent :: above => useContext above
  end.

Definition is_provider (f : frame) : bool :=
  match f with ContextProvider _ => true | OtherComponent => false end.

(** The call site lies in the subtree of some mounted provider. *)
Definition inside_provider (ancestors : list frame) : bool :=
  existsb is_provider ancestors.
End Context.
Global Arguments frame V : clear implicits.

(** [useState(() => init)]: the initializer runs when the slot is still
    empty (the first render of the instance); later renders read the slot. *)
Definition useState_lazy {S A} (init : M S A) (slot : option A)
  : M S (A * option A) :=
  match slot with
  | Some a => ret (a, Some a)
  | None => a <- init ;; ret (a, Some a)
  end.

End React.
Export React.

(** ** [packages/app/provider/auth/AuthProvider.tsx] *)

(** [process.env] as far as this code reads it; [None] is [undefined]. *)
Record ProcessEnv : Type := {
  NEXT_PUBLIC_SUPABASE_URL : option string;
  NEXT_PUBLIC_SUPABASE_ANON_KEY : option string
}.

(** The postfix [!] of TypeScript is a type assertion: it is erased by the
    compiler and the value, [undefined] included, passes through. *)
Definition non_null {A} (x : option A) : option A := x.

(** Every call of a vendor constructor is counted. *)
Definition construct {A} (c : completion A) : M nat A := λ n, (c, S n).

Section Provider.

(** [SupabaseClient<Database>], opaque. *)
Variable SupabaseClient : Type.

(** [createBrowserClient<Database>(url, key)] of [@supabase/ssr]. *)
Variable createBrowserClient :
  option string → option string → completion SupabaseClient.

Record SupabaseContext : Type := { supabase : SupabaseClient }.

(** [const Context = createContext<SupabaseContext | undefined>(undefined)] *)
Definition Context : Type := frame SupabaseContext.

(** One render of [AuthProvider]: the frame it puts around
    [<AuthStateChangeHandler />] and [children], and its state slot. *)
Definition AuthProvider (env : ProcessEnv) (slot : option SupabaseClient)
  : M nat (Context * option SupabaseClient) :=
  st <- useState_lazy
          (construct
             (createBrowserClient
                (non_null (NEXT_PUBLIC_SUPABASE_URL env))
                (non_null (NEXT_PUBLIC_SUPABASE_ANON_KEY env))))
          slot ;;
  ret (ContextProvider {| supabase := fst st |}, snd st).

Definition usage_error : Error :=
  mkError "useSupabaseClient must be used within AuthProvider".

Definition useSupabaseClient (ancestors : list Context)
  : completion SupabaseClient :=
  match useContext ancestors with
  | None => Threw usage_error
  | Some context => Returned (supabase context)
  end.




End Provider.

Arguments supabase {SupabaseClient} _.
Arguments useSupabaseClient {SupabaseClient} ancestors.

(** ** [packages/app/utils/supabase/useSessionContext.ts] *)

Section SessionMirror.

(** [Session] of [@supabase/supabase-js], opaque; [None] is [null]. *)
Variable Session : Type.
Variable SupabaseClient : Type.

(** What the hook returns: [{ session, isLoading, supabaseClient }]. *)
Record SessionContext : Type := {
  session : option Session;
  isLoading : bool;
  supabaseClient : SupabaseClient
}.

(** The two state cells of one mounted instance of the hook, with the
    number of calls each setter has received. *)
Record HookState : Type := {
  st_session : option Session;
  st_isLoading : bool;
  setSession_calls : nat;
  setIsLoading_calls : nat
}.

(** [supabase.auth] as far as the hook drives it. *)
Record AuthClient : Type := {
  getSession_calls : nat;
  (** [getSession()] promises that have not settled yet *)
  pending : nat;
  (** callbacks registered through [onAuthStateChange], by subscription *)
  listeners : list nat;
  next_subscription : nat
}.

Record Mirror : Type := {
  hook : HookState;
  auth : AuthClient;
  (** the function the last run of the effect returned, with the
      [subscription] it closed over *)
  cleanup : option nat;
  (** rejections of promises that have no rejection handler *)
  unhandled : list Error
}.

(** [useState<Session | null>(null)], [useState(true)], nothing issued. *)
Definition mount : Mirror :=
  {| hook := {| st_session := None; st_isLoading := true;
                setSession_calls := 0; setIsLoading_calls := 0 |};
     auth := {| getSession_calls := 0; pending := 0;
                listeners := []; next_subscription := 0 |};
     cleanup := None;
     unhandled := [] |}.

Definition on_hook (f : HookState → HookState) (w : Mirror) : Mirror :=
  {| hook := f (hook w); auth := auth w;
     cleanup := cleanup w; unhandled := unhandled w |}.

Definition setSession (s : option Session) : Mirror → Mirror :=
  on_hook (λ h, {| st_session := s; st_isLoading := st_isLoading h;
                   setSession_calls := S (setSession_calls h);
                   setIsLoading_calls := setIsLoading_calls h |}).

Definition setIsLoading (b : bool) : Mirror → Mirror :=
  on_hook (λ h, {| st_session := st_session h; st_isLoading := b;
                   setSession_calls := setSession_calls h;
                   setIsLoading_calls := S (setIsLoading_calls h) |}).

(** [subscription.unsubscribe()] *)
Definition unsubscribe (subscription : nat) (w : Mirror) : Mirror :=
  {| hook := hook w;
     auth := {| getSession_calls := getSession_calls (auth w);
                pending := pending (auth w);
                listeners :=
                  filter (λ i, i ≠ subscription) (listeners (auth w));
                next_subscription := next_subscription (auth w) |};
     cleanup := cleanup w; unhandled := unhandled w |}.

(** React calls the function the effect returned, once. *)
Definition run_cleanup (w : Mirror) : Mirror :=
  match cleanup w with
  | None => w
  | Some subscription =>
      let w' := unsubscribe subscription w in
      {| hook := hook w'; auth := auth w';
         cleanup := None; unhandled := unhandled w' |}
  end.

(** The body of the effect: [getSession()] is issued with a fulfilment
    callback only, the listener is registered, the clean-up is returned. *)
Definition effect (w : Mirror) : Mirror :=
  let subscription := next_subscription (auth w) in
  {| hook := hook w;
     auth := {| getSession_calls := S (getSession_calls (auth w));
                pending := S (pending (auth w));
                listeners := listeners (auth w) ++ [subscription];
                next_subscription := S subscription |};
     cleanup := Some subscription;
     unhandled := unhandled w |}.

(** A pending promise leaves the pending set when it settles. *)
Definition settle (w : Mirror) : Mirror :=
  {| hook := hook w;
     auth := {| getSession_calls := getSession_calls (auth w);
                pending := pred (pending (auth w));
                listeners := listeners (auth w);
                next_subscription := next_subscription (auth w) |};
     cleanup := cleanup w; unhandled := unhandled w |}.

Definition reject_unhandled (e : Error) (w : Mirror) : Mirror :=
  {| hook := hook w; auth := auth w; cleanup := cleanup w;
     unhandled := unhandled w ++ [e] |}.

(** What happens to a mounted instance. *)
Inductive event : Type :=
(** React runs the effect, after the clean-up of its previous run *)
| EffectRuns
(** a pending [getSession()] fulfils with [{ data: { session } }] *)
| GetSessionResolves (s : option Session)
(** a pending [getSession()] rejects *)
| GetSessionRejects (e : Error)
(** the client notifies its listeners: [(_event, session)] *)
| AuthStateChanges (_event : string) (s : option Session)
(** the consuming component goes away *)
| Unmounts.

Definition step (ev : event) (w : Mirror) : Mirror :=
  match ev with
  | EffectRuns => effect (run_cleanup w)
  | GetSessionResolves s =>
      match pending (auth w) with
      | 0 => w
      | S _ => setIsLoading false (setSession s (settle w))
      end
  | GetSessionRejects e =>
      match pending (auth w) with
      | 0 => w
      | S _ => reject_unhandled e (settle w)
      end
  | AuthStateChanges _ s =>
      foldl (λ w' _, setSession s w') w (listeners (auth w))
  | Unmounts => run_cleanup w
  end.

Definition run (trace : list event) (w : Mirror) : Mirror :=
  foldl (λ w' ev, step ev w') w trace.

(** The worlds a trace goes through, the starting one first. *)
Fixpoint history (trace : list event) (w : Mirror) : list Mirror :=
  w :: match trace with
       | [] => []
       | ev :: trace' => history trace' (step ev w)
       end.

Definition loading (w : Mirror) : bool := st_isLoading (hook w).

(** Changes of a flag along a history: true to false, false to true. *)
Fixpoint falls (l : list bool) : nat :=
  match l with
  | b1 :: (b2 :: _) as l' =>
      (if b1 && negb b2 then 1 else 0) + falls l'
  | _ => 0
  end.

Fixpoint rises (l : list bool) : nat :=
  match l with
  | b1 :: (b2 :: _) as l' =>
      (if negb b1 && b2 then 1 else 0) + rises l'
  | _ => 0
  end.

Definition change_events (l : list (string * option Session)) : list event :=
  map (λ p, AuthStateChanges (fst p) (snd p)) l.

(** The client holds exactly the listener of the effect run that has not been
    cleaned up yet. *)
Definition one_listener (w : Mirror) : Prop :=
  listeners (auth w) = match cleanup w with Some i => [i] | None => [] end.

(** One render of the hook. *)
Definition useSessionContext (ancestors : list (Context SupabaseClient))
    (w : Mirror) : completion SessionContext :=
  match useSupabaseClient ancestors with
  | Threw e => Threw e
  | Returned supabase =>
      Returned {| session := st_session (hook w);
                  isLoading := st_isLoading (hook w);
                  supabaseClient := supabase |}
  end.

End SessionMirror.

Arguments mount {Session}.
Arguments EffectRuns {Session}.
Arguments GetSessionResolves {Session} s.
Arguments GetSessionRejects {Session} e.
Arguments AuthStateChanges {Session} _event s.
Arguments Unmounts {Session}.
Arguments step {Session} ev w.
Arguments run {Session} trace w.
Arguments history {Session} trace w.
Arguments loading {Session} w.
Arguments change_events {Session} l.
Arguments one_listener {Session} w.
Arguments hook {Session} _.
Arguments auth {Session} _.
Arguments cleanup {Session} _.
Arguments unhandled {Session} _.
Arguments st_session {Session} _.
Arguments st_isLoading {Session} _.
Arguments setSession_calls {Session} _.
Arguments setIsLoading_calls {Session} _.
Arguments useSessionContext {Session SupabaseClient} ancestors w.
Arguments session {Session SupabaseClient} _.
Arguments isLoading {Session SupabaseClient} _.
Arguments supabaseClient {Session SupabaseClient} _.

(** ** The cookie methods of [apps/next/middleware.ts] and
       [packages/api/src/trpc.ts] *)

Inductive SameSite : Type := SameSiteStrict | SameSiteLax | SameSiteNone.

(** The attributes of a cookie; an absent attribute is [None]. *)
Record CookieOptions : Type := {
  path : option string;
  domain : option string;
  expires : option Z;
  maxAge : option Z;
  sameSite : option SameSite;
  secure : option bool;
  httpOnly : option bool
}.

(** An element of [cookiesToSet]: [{ name, value, options }]. *)
Record CookieToSet : Type := {
  name : string;
  value : string;
  options : CookieOptions
}.

(** What the source calls on [req.cookies], [res.cookies] and
    [cookiesStore]: [getAll()] yields [{ name, value }] pairs, [set(name,
    value)] and [set(name, value, options)] write one cookie, and a response
    that was just made has the jar [store_new].  Either call may throw. *)
Class CookieStore (J : Type) : Type := {
  store_getAll : J → completion (list (string * string));
  store_set : string → string → option CookieOptions → J → completion J;
  store_new : J
}.

(** The [cookies] option of [createServerClient]. *)
Record CookieMethodsServer (St : Type) : Type := {
  getAll : M St (list (string * string));
  setAll : list CookieToSet → M St ()
}.
Arguments getAll {St} _.
Arguments setAll {St} _ _.

(** A [NextResponse]: its cookie jar, and the request cookies it forwards to
    the next layer when it was made with [{ request: { headers } }]. *)
Record NextResponse (J : Type) : Type := {
  res_cookies : J;
  forwarded : option J
}.
Arguments res_cookies {J} _.
Arguments forwarded {J} _.

(** What the closures of the middleware reach: [req] and the variable
    [res]. *)
Record Middleware (J : Type) : Type := {
  req_cookies : J;
  res : NextResponse J
}.
Arguments req_cookies {J} _.
Arguments res {J} _.

Section Bridge.

Context {J : Type} `{CookieStore J}.

(** [req.cookies.set(name, value)] *)
Definition req_cookies_set (n v : string) : M (Middleware J) () :=
  update (λ st,
    match store_set n v None (req_cookies st) with
    | Returned j => Returned {| req_cookies := j; res := res st |}
    | Threw e => Threw e
    end).

(** [res = NextResponse.next({ request: { headers: req.headers } })] *)
Definition NextResponse_next : M (Middleware J) () :=
  λ st, (Returned (),
         {| req_cookies := req_cookies st;
            res := {| res_cookies := store_new;
                      forwarded := Some (req_cookies st) |} |}).

(** [res.cookies.set(name, value, options)] *)
Definition res_cookies_set (n v : string) (o : CookieOptions)
  : M (Middleware J) () :=
  update (λ st,
    match store_set n v (Some o) (res_cookies (res st)) with
    | Returned j =>
        Returned {| req_cookies := req_cookies st;
                    res := {| res_cookies := j;
                              forwarded := forwarded (res st) |} |}
    | Threw e => Threw e
    end).

(** [apps/next/middleware.ts] *)
Definition middleware_cookies : CookieMethodsServer (Middleware J) :=
  {| getAll := call (λ st, store_getAll (req_cookies st));
     setAll := λ cookiesToSet,
       forEach (λ c, req_cookies_set (name c) (value c)) cookiesToSet ;;
       NextResponse_next ;;
       forEach (λ c, res_cookies_set (name c) (value c) (options c))
               cookiesToSet |}.

(** [packages/api/src/trpc.ts]; the closures reach [cookiesStore]. *)
Definition trpc_cookies : CookieMethodsServer J :=
  {| getAll := call store_getAll;
     setAll := λ cookiesToSet,
       forEach (λ c, update (store_set (name c) (value c) (Some (options c))))
               cookiesToSet |}.

(** [createServerClient<Database>(url, key, { cookies })] of
    [@supabase/ssr]. *)
Variable ServerClient : Type → Type.
Variable createServerClient :
  ∀ St, option string → option string → CookieMethodsServer St →
        completion (ServerClient St).

(** The construction in the middleware, once per invocation. *)
Definition middleware_client (env : ProcessEnv)
  : M nat (ServerClient (Middleware J)) :=
  construct
    (createServerClient _
       (non_null (NEXT_PUBLIC_SUPABASE_URL env))
       (non_null (NEXT_PUBLIC_SUPABASE_ANON_KEY env))
       middleware_cookies).

(** The construction in the tRPC context, once per context. *)
Definition trpc_client (env : ProcessEnv) : M nat (ServerClient J) :=
  construct
    (createServerClient _
       (non_null (NEXT_PUBLIC_SUPABASE_URL env))
       (non_null (NEXT_PUBLIC_SUPABASE_ANON_KEY env))
       trpc_cookies).


End Bridge.

(** The calls the SDK makes on the cookie methods it was given. *)
Inductive bridge_call : Type :=
| CallGetAll
| CallSetAll (cookiesToSet : list CookieToSet).

(** Make the calls in order, collecting what each [getAll()] returned. *)
Fixpoint drive {St} (cookies : CookieMethodsServer St)
    (calls : list bridge_call) : M St (list (list (string * string))) :=
  match calls with
  | [] => ret []
  | CallGetAll :: calls' =>
      r <- getAll cookies ;;
      rs <- drive cookies calls' ;;
      ret (r :: rs)
  | CallSetAll cookiesToSet :: calls' =>
      setAll cookies cookiesToSet ;;
      drive cookies calls'
  end.

(** *** The cookie jars of the framework *)

(** A jar maps a cookie name to its value and, when the cookie was written
    with attributes, to these.  [set] on a name replaces its entry. *)
Abbreviation CookieJar := (gmap string (string * option CookieOptions)).

#[global] Instance jar_store : CookieStore CookieJar :=
  {| store_getAll := λ j, Returned (map_to_list (fst <$> j));
     store_set := λ n v o j, Returned (<[n := (v, o)]> j);
     store_new := ∅ |}.

(** The jar of an incoming request: names and values, no attributes. *)
Definition request_jar (cookies : gmap string string) : CookieJar :=
  (λ v, (v, None)) <$> cookies.

(** A jar that cannot be written, as a framework hands out where the response
    has already started. *)
Inductive SealedJar : Type := Sealed (j : CookieJar).

Definition sealed_error : Error := mkError "Cookies can not be modified here".

#[global] Instance sealed_store : CookieStore SealedJar :=
  {| store_getAll := λ '(Sealed j), Returned (map_to_list (fst <$> j));
     store_set := λ _ _ _ _, Threw sealed_error;
     store_new := Sealed ∅ |}.

(** The middleware when a request comes in; [res] is a plain
    [NextResponse.next()]. *)
Definition middleware_start (cookies : gmap string string)
  : Middleware CookieJar :=
  {| req_cookies := request_jar cookies;
     res := {| res_cookies := ∅; forwarded := None |} |}.

(** The tRPC context when a request comes in. *)
Definition trpc_start (cookies : gmap string string) : CookieJar :=
  request_jar cookies.

(** The cookies a jar sends out with the response: those written with
    attributes. *)
Definition written (j : CookieJar) : CookieJar :=
  filter (λ kv, is_Some (snd (snd kv))) j.

(** One jar after a list of triples has been set on it, in order. *)
Definition set_each (cookiesToSet : list CookieToSet) (j : CookieJar)
  : CookieJar :=
  foldl (λ j' c, <[name c := (value c, Some (options c))]> j') j cookiesToSet.

(** The same for [set(name, value)], which writes no attributes. *)
Definition set_each_bare (cookiesToSet : list CookieToSet) (j : CookieJar)
  : CookieJar :=
  foldl (λ j' c, <[name c := (value c, None)]> j') j cookiesToSet.

(** What the next layer and the client see of a run of the middleware:
    what each [getAll()] returned and the cookies on the response; and the
    same for the tRPC context, whose one store holds both. *)
Definition middleware_observed (cookies : gmap string string)
    (calls : list bridge_call)
  : completion (list (list (string * string))) * CookieJar :=
  let r := drive middleware_cookies calls (middleware_start cookies) in
  (fst r, res_cookies (res (snd r))).

Definition trpc_observed (cookies : gmap string string)
    (calls : list bridge_call)
  : completion (list (list (string * string))) * CookieJar :=
  let r := drive trpc_cookies calls (trpc_start cookies) in
  (fst r, written (snd r)).

(** *** Cookies used in the examples *)

Definition only_path (p : string) : CookieOptions :=
  {| path := Some p; domain := None; expires := None; maxAge := None;
     sameSite := None; secure := None; httpOnly := None |}.

Definition cookie_a : CookieToSet :=
  {| name := "a"; value := "1"; options := only_path "/" |}.

Definition cookie_b : CookieToSet :=
  {| name := "b"; value := "2"; options := only_path "/" |}.

Definition cookie_c : CookieToSet :=
  {| name := "c"; value := "3"; options := only_path "/" |}.

(** *** Vendor constructors used in the examples *)




Definition failing_createServerClient (e : Error) (St : Type)
    (url key : option string) (cookies : CookieMethodsServer St)
  : completion (CookieMethodsServer St) :=
  Threw e.

(** ** Further definitions *)

(** [packages/app/utils/supabase/useSupabase.ts] *)
Definition useSupabase {SupabaseClient : Type}
    (ancestors : list (Context SupabaseClient)) : completion SupabaseClient :=
  useSupabaseClient ancestors.

(** What a caller does with the value a call returned; a throw goes by. *)
Definition on_return {A B} (f : A → B) (c : completion A) : completion B :=
  match c with
  | Returned a => Returned (f a)
  | Threw e => Threw e
  end.

Definition is_effect_run {Session : Type} (ev : event Session) : bool :=
  match ev with EffectRuns => true | _ => false end.

Fixpoint effect_runs {Session : Type} (trace : list (event Session)) : nat :=
  match trace with
  | [] => 0
  | ev :: trace' =>
      (if is_effect_run ev then 1 else 0) + effect_runs trace'
  end.

(** Every fetch that was issued is pending, or was fulfilled, or was
    rejected; and the flag is on exactly while none was fulfilled. *)
Definition fetches_accounted {Session : Type} (w : Mirror Session) : Prop :=
  getSession_calls (auth w)
  = pending (auth w) + setIsLoading_calls (hook w) + length (unhandled w)
  ∧ loading w = bool_decide (setIsLoading_calls (hook w) = 0).

(** The listener in the client is the one of the newest subscription. *)
Definition newest_listener {Session : Type} (w : Mirror Session) : Prop :=
  match cleanup w with
  | Some i =>
      listeners (auth w) = [i] ∧ next_subscription (auth w) = S i
  | None => listeners (auth w) = []
  end.

(** The last triple of a list that has the given name. *)
Fixpoint last_named (n : string) (cookiesToSet : list CookieToSet)
  : option CookieToSet :=
  match cookiesToSet with
  | [] => None
  | c :: rest =>
      match last_named n rest with
      | Some c' => Some c'
      | None => if decide (name c = n) then Some c else None
      end
  end.

(** The triples of every [setAll] of a run, in order, and those of its last
    [setAll], if it has one. *)
Fixpoint all_set (calls : list bridge_call) : list CookieToSet :=
  match calls with
  | [] => []
  | CallGetAll :: calls' => all_set calls'
  | CallSetAll cookiesToSet :: calls' => cookiesToSet ++ all_set calls'
  end.

Fixpoint last_set (calls : list bridge_call) : option (list CookieToSet) :=
  match calls with
  | [] => None
  | CallGetAll :: calls' => last_set calls'
  | CallSetAll cookiesToSet :: calls' =>
      match last_set calls' with
      | Some later => Some later
      | None => Some cookiesToSet
      end
  end.

(** A jar that refuses a cookie without a name. *)
Inductive StrictJar : Type := Strict (j : CookieJar).

Definition invalid_name_error : Error := mkError "cookie name is invalid".

#[global] Instance strict_store : CookieStore StrictJar :=
  {| store_getAll := λ '(Strict j), Returned (map_to_list (fst <$> j));
     store_set := λ n v o '(Strict j),
       if decide (n = "") then Threw invalid_name_error
       else Returned (Strict (<[n := (v, o)]> j));
     store_new := Strict ∅ |}.

Definition cookie_nameless : CookieToSet :=
  {| name := ""; value := "x"; options := only_path "/" |}.

(** * Properties *)

(** ** The provider and its accessor *)

Section ProviderFacts.

Context {SupabaseClient : Type}.
Variable createBrowserClient :
  option string → option string → completion SupabaseClient.

Implicit Types (ancestors outer : list (Context SupabaseClient)).
Implicit Types (context : SupabaseContext SupabaseClient).

Lemma useContext_outside ancestors :
  useContext ancestors = None ↔ inside_provider ancestors = false.
Proof.
  induction ancestors as [|[v|] above IH]; simpl; [done| |done].
  split; discriminate.
Qed.

Lemma useContext_nearest n context outer :
  useContext (replicate n OtherComponent ++ ContextProvider context :: outer)
  = Some context.
Proof. induction n as [|n IH]; simpl; auto. Qed.

Lemma useSupabaseClient_did_throw ancestors :
  did_throw (useSupabaseClient ancestors) = negb (inside_provider ancestors).
Proof.
  unfold useSupabaseClient.
  destruct (useContext ancestors) as [c|] eqn:E; simpl.
  - destruct (inside_provider ancestors) eqn:I; [done|].
    apply useContext_outside in I. congruence.
  - apply useContext_outside in E. by rewrite E.
Qed.

(** The first render of a provider calls the constructor once and stores
    what it returned; a throw of the constructor is the throw of the render. *)
Lemma AuthProvider_first_render env count :
  AuthProvider SupabaseClient createBrowserClient env None count
  = (match createBrowserClient (NEXT_PUBLIC_SUPABASE_URL env)
                               (NEXT_PUBLIC_SUPABASE_ANON_KEY env) with
     | Returned c => Returned (ContextProvider {| supabase := c |}, Some c)
     | Threw e => Threw e
     end, S count).
Proof.
  unfold AuthProvider, useState_lazy, bind, construct, ret, non_null.
  by destruct (createBrowserClient _ _).
Qed.






End ProviderFacts.

(** C1.  [useSupabaseClient] throws exactly when no [AuthProvider] is mounted
    above the call site, and what it throws is the error
    'useSupabaseClient must be used within AuthProvider'; below a provider,
    however many other components lie in between, it returns the client that
    provider published. *)
Theorem useSupabaseClient_throws_iff_outside {SupabaseClient : Type}
    (ancestors outer : list (Context SupabaseClient)) (n : nat)
    (context : SupabaseContext SupabaseClient) :
  (useSupabaseClient ancestors = Threw (usage_error)
   ↔ inside_provider ancestors = false)
  ∧ did_throw (useSupabaseClient ancestors) = negb (inside_provider ancestors)
  ∧ useSupabaseClient
      (replicate n OtherComponent ++ ContextProvider context :: outer)
    = Returned (supabase context).
Proof.
  split; [|split].
  - rewrite <- useContext_outside. unfold useSupabaseClient.
    destruct (useContext ancestors); split; done.
  - apply useSupabaseClient_did_throw.
  - unfold useSupabaseClient. by rewrite useContext_nearest.
Qed.





(** ** The session mirror *)

Section MirrorFacts.

Context {Session : Type}.
Implicit Types (w : Mirror Session) (ev : event Session).
Implicit Types (trace : list (event Session)).
Implicit Types (s : option Session).

Lemma hook_run_cleanup w : hook (run_cleanup Session w) = hook w.
Proof. unfold run_cleanup. by destruct (cleanup w). Qed.

Lemma notify_listeners s (l : list nat) w :
  hook (foldl (λ w' _, setSession Session s w') w l)
  = match l with
    | [] => hook w
    | _ :: _ =>
        {| st_session := s;
           st_isLoading := st_isLoading (hook w);
           setSession_calls := length l + setSession_calls (hook w);
           setIsLoading_calls := setIsLoading_calls (hook w) |}
    end.
Proof.
  revert w. induction l as [|i l IH]; intros w; [done|].
  simpl. rewrite IH. destruct l; simpl; [done|].
  do 2 f_equal. lia.
Qed.

Lemma loading_notify s (l : list nat) w :
  loading (foldl (λ w' _, setSession Session s w') w l) = loading w.
Proof. unfold loading. rewrite notify_listeners. by destruct l. Qed.

(** No event turns the flag back on. *)
Lemma loading_step_false ev w : loading w = false → loading (step ev w) = false.
Proof.
  intros Hw. destruct ev as [|s|e|name s|]; simpl.
  - unfold loading in *. simpl. by rewrite hook_run_cleanup.
  - by destruct (pending (auth w)).
  - by destruct (pending (auth w)).
  - by rewrite loading_notify.
  - unfold loading in *. by rewrite hook_run_cleanup.
Qed.

Lemma history_unfold trace w :
  history trace w = w :: tail (history trace w).
Proof. by destruct trace. Qed.

Lemma falls_cons (b : bool) trace w :
  falls (b :: (loading <$> history trace w))
  = (if b && negb (loading w) then 1 else 0)
    + falls (loading <$> history trace w).
Proof. rewrite (history_unfold trace w). reflexivity. Qed.

Lemma rises_cons (b : bool) trace w :
  rises (b :: (loading <$> history trace w))
  = (if negb b && loading w then 1 else 0)
    + rises (loading <$> history trace w).
Proof. rewrite (history_unfold trace w). reflexivity. Qed.

Lemma history_cons ev trace w :
  loading <$> history (ev :: trace) w
  = loading w :: (loading <$> history trace (step ev w)).
Proof. reflexivity. Qed.

Lemma loading_history_false trace w :
  loading w = false →
  loading <$> history trace w = replicate (S (length trace)) false.
Proof.
  revert w. induction trace as [|ev trace IH]; intros w Hw.
  - simpl. by rewrite Hw.
  - rewrite history_cons, IH by by apply loading_step_false.
    simpl. by rewrite Hw.
Qed.

Lemma falls_replicate (b : bool) n : falls (replicate n b) = 0.
Proof.
  induction n as [|[|n] IH]; [done..|].
  change (falls (replicate (S (S n)) b))
    with ((if b && negb b then 1 else 0) + falls (replicate (S n) b)).
  rewrite IH. by destruct b.
Qed.

Lemma rises_replicate (b : bool) n : rises (replicate n b) = 0.
Proof.
  induction n as [|[|n] IH]; [done..|].
  change (rises (replicate (S (S n)) b))
    with ((if negb b && b then 1 else 0) + rises (replicate (S n) b)).
  rewrite IH. by destruct b.
Qed.

(** Along any trace from any world the flag never rises and falls at most
    once. *)
Lemma loading_monotone trace w :
  rises (loading <$> history trace w) = 0
  ∧ falls (loading <$> history trace w) ≤ 1.
Proof.
  revert w. induction trace as [|ev trace IH]; intros w; [by simpl; lia|].
  rewrite history_cons, falls_cons, rises_cons.
  destruct (loading w) eqn:Hw; simpl.
  - destruct (loading (step ev w)) eqn:Hs; simpl.
    + apply IH.
    + rewrite loading_history_false by done.
      rewrite falls_replicate, rises_replicate. lia.
  - rewrite (loading_step_false ev w Hw). simpl. apply IH.
Qed.

Lemma run_app trace1 trace2 w :
  run (trace1 ++ trace2) w = run trace2 (run trace1 w).
Proof. apply foldl_app. Qed.

Lemma history_app_loading trace1 ev trace2 w :
  loading <$> history (trace1 ++ ev :: trace2) w
  = (loading <$> history trace1 w)
    ++ (loading <$> history trace2 (step ev (run trace1 w))).
Proof.
  revert w. induction trace1 as [|e1 trace1 IH]; intros w; [done|].
  simpl. f_equal. apply IH.
Qed.

(** Change events leave the flag alone. *)
Lemma loading_change_events (l : list (string * option Session)) w :
  loading <$> history (change_events l) w
  = replicate (S (length l)) (loading w).
Proof.
  revert w. induction l as [|[name s] l IH]; intros w; [done|].
  simpl. f_equal. rewrite IH. simpl. by rewrite loading_notify.
Qed.

Lemma loading_run_change_events (l : list (string * option Session)) w :
  loading (run (change_events l) w) = loading w.
Proof.
  revert w. induction l as [|[name s] l IH]; intros w; [done|].
  simpl. rewrite IH. simpl. apply loading_notify.
Qed.

Lemma pending_notify s (l : list nat) w :
  auth (foldl (λ w' _, setSession Session s w') w l) = auth w
  ∧ cleanup (foldl (λ w' _, setSession Session s w') w l) = cleanup w
  ∧ unhandled (foldl (λ w' _, setSession Session s w') w l) = unhandled w.
Proof.
  revert w. induction l as [|i l IH]; intros w; [done|].
  simpl. destruct (IH (setSession Session s w)) as (-> & -> & ->). done.
Qed.

Lemma auth_run_change_events (l : list (string * option Session)) w :
  auth (run (change_events l) w) = auth w.
Proof.
  revert w. induction l as [|[name s] l IH]; intros w; [done|].
  simpl. rewrite IH. simpl. apply pending_notify.
Qed.

Lemma filter_only_self (i : nat) : filter (λ j, j ≠ i) [i] = [].
Proof. rewrite filter_cons. by rewrite decide_False by naive_solver. Qed.

Lemma one_listener_step ev w : one_listener w → one_listener (step ev w).
Proof.
  unfold one_listener. intros Hw.
  destruct ev as [|s|e|name s|]; simpl.
  - unfold run_cleanup. destruct (cleanup w) as [i|]; simpl; rewrite Hw.
    + by rewrite filter_only_self.
    + done.
  - by destruct (pending (auth w)).
  - by destruct (pending (auth w)).
  - destruct (pending_notify s (listeners (auth w)) w) as (-> & -> & _). done.
  - unfold run_cleanup. destruct (cleanup w) as [i|] eqn:E; simpl.
    + by rewrite Hw, filter_only_self.
    + by rewrite E.
Qed.

Lemma one_listener_run trace w : one_listener w → one_listener (run trace w).
Proof.
  revert w. induction trace as [|ev trace IH]; intros w Hw; [done|].
  simpl. apply IH. by apply one_listener_step.
Qed.

Lemma one_listener_mount : one_listener (@mount Session).
Proof. reflexivity. Qed.

Lemma cleanup_run_cleanup w : cleanup (run_cleanup Session w) = None.
Proof. unfold run_cleanup. by destruct (cleanup w) eqn:E. Qed.

(** Without a listener a change event changes nothing at all. *)
Lemma change_events_unheard (l : list (string * option Session)) w :
  listeners (auth w) = [] → run (change_events l) w = w.
Proof.
  intros Hw. induction l as [|[name s] l IH]; [done|].
  simpl. rewrite Hw. simpl. apply IH.
Qed.

End MirrorFacts.

Lemma falls_true_then_false a b :
  falls (replicate (S a) true ++ replicate (S b) false) = 1.
Proof.
  induction a as [|a IH].
  - change (falls (replicate 1 true ++ replicate (S b) false))
      with (1 + falls (replicate (S b) false)).
    by rewrite falls_replicate.
  - change (falls (replicate (S (S a)) true ++ replicate (S b) false))
      with (0 + falls (replicate (S a) true ++ replicate (S b) false)).
    by rewrite IH.
Qed.

(** C3.  [isLoading] starts true; along any sequence of events it never goes
    from false to true and goes from true to false at most once; when the
    effect has run and its [getSession()] fulfils between any two runs of
    change events, the flag is true up to the fulfilment and false from it
    on, so it falls exactly once and no change event moves it. *)
Theorem isLoading_falls_once {Session : Type} (trace : list (event Session))
    (before after : list (string * option Session)) (s : option Session) :
  loading (@mount Session) = true
  ∧ rises (loading <$> history trace mount) = 0
  ∧ falls (loading <$> history trace mount) ≤ 1
  ∧ loading <$> history (EffectRuns :: change_events before
                           ++ GetSessionResolves s :: change_events after)
                        mount
    = replicate (2 + length before) true ++ replicate (1 + length after) false
  ∧ falls (loading <$> history (EffectRuns :: change_events before
                                  ++ GetSessionResolves s
                                  :: change_events after)
                               mount) = 1.
Proof.
  split; [done|].
  split; [apply loading_monotone|].
  split; [apply loading_monotone|].
  assert (loading <$> history (EffectRuns :: change_events before
                                 ++ GetSessionResolves s :: change_events after)
                              mount
          = replicate (2 + length before) true
            ++ replicate (1 + length after) false) as Hshape.
  { rewrite history_cons, history_app_loading, !loading_change_events.
    simpl step.
    pose proof (auth_run_change_events before (effect Session (run_cleanup Session mount))) as Hauth.
    destruct (pending (auth (run (change_events before)
                               (effect Session (run_cleanup Session mount)))))
      as [|p] eqn:Hp.
    { rewrite Hauth in Hp. discriminate. }
    reflexivity. }
  split; [exact Hshape|].
  rewrite Hshape. apply (falls_true_then_false (S (length before))).
Qed.

(** C4.  While the listener of the effect is registered, a change event
    makes one [setSession] call with its own payload and nothing else: the
    stored session afterwards is that payload, whatever was stored before. *)
Theorem change_event_replaces_session {Session : Type}
    (pre : list (event Session)) (name : string) (s : option Session) :
  is_Some (cleanup (run pre mount)) →
  step (AuthStateChanges name s) (run pre mount)
  = setSession Session s (run pre mount)
  ∧ st_session (hook (step (AuthStateChanges name s) (run pre mount))) = s.
Proof.
  intros [i Hi].
  pose proof (one_listener_run pre mount one_listener_mount) as Hone.
  unfold one_listener in Hone. rewrite Hi in Hone.
  assert (step (AuthStateChanges name s) (run pre mount)
          = setSession Session s (run pre mount)) as Hstep.
  { simpl. by rewrite Hone. }
  split; [exact Hstep|]. by rewrite Hstep.
Qed.

Lemma change_event_replaces_session_witness :
  is_Some (cleanup (run [EffectRuns; AuthStateChanges "SIGNED_IN" (Some 1)]
                        (@mount nat)))
  ∧ st_session
      (hook (step (AuthStateChanges "TOKEN_REFRESHED" (Some 2))
               (run [EffectRuns; AuthStateChanges "SIGNED_IN" (Some 1)]
                    mount)))
    = Some 2.
Proof.
  split; [by eexists|].
  apply (change_event_replaces_session
           [EffectRuns; AuthStateChanges "SIGNED_IN" (Some 1)]
           "TOKEN_REFRESHED" (Some 2)).
  by eexists.
Defined.

(** C8.  Once the consuming scope has been torn down, after any events
    before it (any number N of change events among them), further change
    events leave the instance exactly as the teardown left it: no setter is
    called, the session and the flag keep their values. *)
Theorem no_change_event_heard_after_teardown {Session : Type}
    (pre : list (event Session)) (later : list (string * option Session)) :
  run (change_events later) (run (pre ++ [Unmounts]) mount)
  = run (pre ++ [Unmounts]) mount
  ∧ listeners (auth (run (pre ++ [Unmounts]) mount)) = []
  ∧ hook (run (pre ++ Unmounts :: change_events later) mount)
    = hook (run pre mount).
Proof.
  assert (listeners (auth (run (pre ++ [Unmounts]) mount)) = []) as Hnone.
  { pose proof (one_listener_run (pre ++ [Unmounts]) mount one_listener_mount)
      as Hone.
    unfold one_listener in Hone. rewrite Hone.
    rewrite run_app. simpl. by rewrite cleanup_run_cleanup. }
  split; [by apply change_events_unheard|].
  split; [done|].
  rewrite run_app in Hnone. simpl in Hnone.
  rewrite run_app. simpl. change (foldl _ ?w (change_events later))
    with (run (change_events later) w).
  rewrite change_events_unheard by done. apply hook_run_cleanup.
Qed.

(** The fulfilment callback of [getSession()] is not withdrawn by the
    teardown: it still calls both setters when the promise fulfils late. *)
Lemma late_fulfilment_after_teardown :
  hook (run [EffectRuns; Unmounts; GetSessionResolves (Some 5)] (@mount nat))
  = {| st_session := Some 5; st_isLoading := false;
       setSession_calls := 1; setIsLoading_calls := 1 |}.
Proof. reflexivity. Qed.

(** C10.  Below a provider, the render of the hook at activation, and the
    render after the effect has run but before its [getSession()] settles or
    any change event arrives, both return [session = null],
    [isLoading = true] and the client the provider's context holds. *)
Theorem useSessionContext_initial {Session SupabaseClient : Type}
    (n : nat) (context : SupabaseContext SupabaseClient)
    (outer : list (Context SupabaseClient)) :
  useSessionContext
    (replicate n OtherComponent ++ ContextProvider context :: outer)
    (@mount Session)
  = Returned {| session := None; isLoading := true;
                supabaseClient := supabase context |}
  ∧ useSessionContext
      (replicate n OtherComponent ++ ContextProvider context :: outer)
      (step EffectRuns (@mount Session))
    = Returned {| session := None; isLoading := true;
                  supabaseClient := supabase context |}.
Proof.
  unfold useSessionContext, useSupabaseClient.
  rewrite useContext_nearest. by split.
Qed.

(** ** The cookie bridge over the framework's jars *)

Section BridgeFacts.

Implicit Types (j : CookieJar) (st : Middleware CookieJar).
Implicit Types (c : CookieToSet) (cs : list CookieToSet).
Implicit Types (calls : list bridge_call).

Lemma forEach_req_cookies_set cs st :
  forEach (λ c, req_cookies_set (name c) (value c)) cs st
  = (Returned (), {| req_cookies := set_each_bare cs (req_cookies st);
                     res := res st |}).
Proof.
  revert st. induction cs as [|c cs IH]; intros st; [by destruct st|].
  simpl. unfold bind. simpl. by rewrite IH.
Qed.

Lemma forEach_res_cookies_set cs st :
  forEach (λ c, res_cookies_set (name c) (value c) (options c)) cs st
  = (Returned (),
     {| req_cookies := req_cookies st;
        res := {| res_cookies := set_each cs (res_cookies (res st));
                  forwarded := forwarded (res st) |} |}).
Proof.
  revert st. induction cs as [|c cs IH]; intros st; [by destruct st as [? []]|].
  simpl. unfold bind. simpl. by rewrite IH.
Qed.

(** One [setAll] of the middleware: the request jar takes every name and
    value, a new response is made that forwards the request as it then is,
    and the new response takes every triple. *)
Lemma middleware_setAll cs st :
  setAll middleware_cookies cs st
  = (Returned (),
     {| req_cookies := set_each_bare cs (req_cookies st);
        res := {| res_cookies := set_each cs ∅;
                  forwarded := Some (set_each_bare cs (req_cookies st)) |} |}).
Proof.
  simpl. unfold bind at 1. rewrite forEach_req_cookies_set.
  unfold bind at 1. simpl. by rewrite forEach_res_cookies_set.
Qed.

Lemma trpc_setAll cs j :
  setAll trpc_cookies cs j = (Returned (), set_each cs j).
Proof.
  revert j. induction cs as [|c cs IH]; intros j; [done|].
  simpl in *. unfold bind. simpl. by rewrite IH.
Qed.

Lemma middleware_getAll st :
  getAll middleware_cookies st
  = (Returned (map_to_list (fst <$> req_cookies st)), st).
Proof. reflexivity. Qed.

Lemma trpc_getAll j :
  getAll trpc_cookies j = (Returned (map_to_list (fst <$> j)), j).
Proof. reflexivity. Qed.

Lemma fst_request_jar (cookies : gmap string string) :
  fst <$> request_jar cookies = cookies.
Proof.
  unfold request_jar. rewrite <- map_fmap_compose.
  apply map_fmap_id.
Qed.

Lemma written_request_jar (cookies : gmap string string) :
  written (request_jar cookies) = ∅.
Proof.
  apply map_empty_filter_2. intros n [v o] Hn [x Hx].
  unfold request_jar in Hn. rewrite lookup_fmap in Hn.
  destruct (cookies !! n); simplify_eq/=.
Qed.

Lemma written_set_each cs j : written (set_each cs j) = set_each cs (written j).
Proof.
  revert j. induction cs as [|c cs IH]; intros j; [done|].
  simpl. rewrite IH. f_equal. unfold written.
  by apply map_filter_insert_True.
Qed.

Lemma fst_set_each cs j :
  fst <$> set_each cs j = fst <$> set_each_bare cs j.
Proof.
  unfold set_each, set_each_bare.
  revert j. induction cs as [|c cs IH] using rev_ind; intros j; [done|].
  by rewrite !foldl_app; simpl; rewrite !fmap_insert, IH.
Qed.

Lemma fst_set_each_bare cs j j' :
  fst <$> j = fst <$> j' →
  fst <$> set_each_bare cs j = fst <$> set_each_bare cs j'.
Proof.
  unfold set_each_bare. intros Hj.
  induction cs as [|c cs IH] using rev_ind; [done|].
  by rewrite !foldl_app; simpl; rewrite !fmap_insert, IH.
Qed.

End BridgeFacts.

Section DriveFacts.

Implicit Types (j : CookieJar) (st : Middleware CookieJar).
Implicit Types (cs : list CookieToSet) (calls : list bridge_call).

Lemma drive_app {St} (cookies : CookieMethodsServer St) calls1 calls2 (s : St) :
  drive cookies (calls1 ++ calls2) s
  = match drive cookies calls1 s with
    | (Returned r1, s1) =>
        match drive cookies calls2 s1 with
        | (Returned r2, s2) => (Returned (r1 ++ r2), s2)
        | (Threw e, s2) => (Threw e, s2)
        end
    | (Threw e, s1) => (Threw e, s1)
    end.
Proof.
  revert s. induction calls1 as [|[|cs] calls1 IH]; intros s; simpl.
  - unfold ret. by destruct (drive cookies calls2 s) as [[r|e] s2].
  - unfold bind at 1 3. destruct (getAll cookies s) as [[r|e] s1]; [|done].
    unfold bind. rewrite IH.
    destruct (drive cookies calls1 s1) as [[r1|e] s2]; [|done].
    unfold ret. simpl.
    by destruct (drive cookies calls2 s2) as [[r2|e] s3].
  - unfold bind. destruct (setAll cookies cs s) as [[[]|e] s1]; [|done].
    apply IH.
Qed.

(** The two sites in step: as long as the request jar of the middleware and
    the store of the tRPC context hold the same names and values, every
    [getAll()] returns the same list at both. *)
Lemma drive_in_step calls st j :
  fst <$> req_cookies st = fst <$> j →
  ∃ reads st' j',
    drive middleware_cookies calls st = (Returned reads, st')
    ∧ drive trpc_cookies calls j = (Returned reads, j')
    ∧ fst <$> req_cookies st' = fst <$> j'.
Proof.
  revert st j. induction calls as [|[|cs] calls IH]; intros st j Hj.
  - by exists [], st, j.
  - destruct (IH st j Hj) as (reads & st' & j' & Hm & Ht & Hj').
    exists (map_to_list (fst <$> req_cookies st) :: reads), st', j'.
    cbn [drive]. unfold bind at 1 3.
    rewrite middleware_getAll, trpc_getAll. unfold bind.
    rewrite Hm, Ht. unfold ret. by rewrite Hj.
  - destruct (IH {| req_cookies := set_each_bare cs (req_cookies st);
                    res := {| res_cookies := set_each cs ∅;
                              forwarded :=
                                Some (set_each_bare cs (req_cookies st)) |} |}
                 (set_each cs j))
      as (reads & st' & j' & Hm & Ht & Hj').
    { simpl. rewrite fst_set_each. by apply fst_set_each_bare. }
    exists reads, st', j'.
    cbn [drive]. unfold bind.
    by rewrite middleware_setAll, trpc_setAll.
Qed.

Lemma drive_getAll_only_middleware n st :
  drive middleware_cookies (replicate n CallGetAll) st
  = (Returned (replicate n (map_to_list (fst <$> req_cookies st))), st).
Proof.
  induction n as [|n IH]; [done|].
  cbn [replicate drive]. unfold bind at 1. rewrite middleware_getAll.
  unfold bind. by rewrite IH.
Qed.

Lemma drive_getAll_only_trpc n j :
  drive trpc_cookies (replicate n CallGetAll) j
  = (Returned (replicate n (map_to_list (fst <$> j))), j).
Proof.
  induction n as [|n IH]; [done|].
  cbn [replicate drive]. unfold bind at 1. rewrite trpc_getAll.
  unfold bind. by rewrite IH.
Qed.

Lemma start_in_step (cookies : gmap string string) :
  fst <$> req_cookies (middleware_start cookies) = fst <$> trpc_start cookies.
Proof. reflexivity. Qed.

Lemma middleware_after_setAll cookies calls cs :
  snd (middleware_observed cookies (calls ++ [CallSetAll cs])) = set_each cs ∅.
Proof.
  unfold middleware_observed. cbn zeta. rewrite drive_app.
  destruct (drive_in_step calls _ _ (start_in_step cookies))
    as (reads & st' & j' & -> & _ & _).
  cbn [drive]. unfold bind. by rewrite middleware_setAll.
Qed.

Lemma trpc_after_setAll cookies calls cs :
  snd (trpc_observed cookies (calls ++ [CallSetAll cs]))
  = set_each cs (snd (trpc_observed cookies calls)).
Proof.
  unfold trpc_observed. cbn zeta. rewrite drive_app.
  destruct (drive_in_step calls _ _ (start_in_step cookies))
    as (reads & st' & j' & _ & -> & _).
  cbn [drive]. unfold bind. rewrite trpc_setAll. simpl.
  apply written_set_each.
Qed.

Lemma observed_one_setAll cookies a b cs :
  snd (middleware_observed cookies
         (replicate a CallGetAll ++ CallSetAll cs :: replicate b CallGetAll))
  = set_each cs ∅
  ∧ snd (trpc_observed cookies
           (replicate a CallGetAll ++ CallSetAll cs :: replicate b CallGetAll))
    = set_each cs ∅.
Proof.
  unfold middleware_observed, trpc_observed. cbn zeta.
  rewrite !drive_app, drive_getAll_only_middleware, drive_getAll_only_trpc.
  cbn [drive]. unfold bind.
  rewrite middleware_setAll, trpc_setAll.
  rewrite drive_getAll_only_middleware, drive_getAll_only_trpc. simpl.
  split; [done|].
  unfold trpc_start. by rewrite written_set_each, written_request_jar.
Qed.

End DriveFacts.

Lemma set_each_lookup_other (cs : list CookieToSet) (j : CookieJar) n :
  n ∉ name <$> cs → set_each cs j !! n = j !! n.
Proof.
  revert j. induction cs as [|c cs IH]; intros j Hn; [done|].
  simpl in *. apply not_elem_of_cons in Hn as [Hc Hcs].
  change (set_each cs (<[name c := (value c, Some (options c))]> j) !! n
          = j !! n).
  rewrite IH by done. by rewrite lookup_insert_ne.
Qed.

(** When no name occurs twice in [cookiesToSet], every triple of the list is
    in the jar afterwards, with its value and all its attributes. *)
Lemma set_each_lookup (cs : list CookieToSet) (j : CookieJar) c :
  NoDup (name <$> cs) → c ∈ cs →
  set_each cs j !! name c = Some (value c, Some (options c)).
Proof.
  revert j. induction cs as [|c0 cs IH]; intros j Hnd Hc.
  - by apply elem_of_nil in Hc.
  - simpl in Hnd. apply NoDup_cons in Hnd as [Hfresh Hnd].
    change (set_each cs (<[name c0 := (value c0, Some (options c0))]> j)
              !! name c = Some (value c, Some (options c))).
    apply elem_of_cons in Hc as [->|Hc]; [|by apply IH].
    rewrite set_each_lookup_other by done. apply lookup_insert_eq.
Qed.

(** The same on the response of the middleware, for a list of any length. *)
Lemma middleware_setAll_fidelity (cs : list CookieToSet)
    (st : Middleware CookieJar) c :
  NoDup (name <$> cs) → c ∈ cs →
  res_cookies (res (snd (setAll middleware_cookies cs st))) !! name c
  = Some (value c, Some (options c)).
Proof. intros Hnd Hc. rewrite middleware_setAll. by apply set_each_lookup. Qed.

(** C5.  In the middleware [getAll()] returns the cookies of the request,
    all of them and as they are, and changes nothing; [setAll] of one triple
    leaves a response whose jar holds that name with that value and those
    attributes, whatever they are, and which forwards the request with the
    cookie already set on it; the request jar carries it too.  The tRPC
    methods read and write their one store in the same way. *)
Theorem middleware_cookie_relay (cookies : gmap string string)
    (st : Middleware CookieJar) (j : CookieJar) (c : CookieToSet) :
  getAll middleware_cookies (middleware_start cookies)
  = (Returned (map_to_list cookies), middleware_start cookies)
  ∧ getAll middleware_cookies st
    = (Returned (map_to_list (fst <$> req_cookies st)), st)
  ∧ setAll middleware_cookies [c] st
    = (Returned (),
       {| req_cookies := <[name c := (value c, None)]> (req_cookies st);
          res := {| res_cookies := {[ name c := (value c, Some (options c)) ]};
                    forwarded :=
                      Some (<[name c := (value c, None)]> (req_cookies st))
                 |} |})
  ∧ getAll trpc_cookies (trpc_start cookies)
    = (Returned (map_to_list cookies), trpc_start cookies)
  ∧ setAll trpc_cookies [c] j
    = (Returned (), <[name c := (value c, Some (options c))]> j).
Proof.
  split; [|split; [|split; [|split]]].
  - rewrite middleware_getAll. simpl. by rewrite fst_request_jar.
  - apply middleware_getAll.
  - rewrite middleware_setAll. simpl. by rewrite insert_empty.
  - rewrite trpc_getAll. unfold trpc_start. by rewrite fst_request_jar.
  - by rewrite trpc_setAll.
Qed.

(** The example of the specification: a request with [a=1] and [b=2], then
    [setAll([{ name: "c", value: "3", options: { path: "/" } }])]. *)
Lemma middleware_relay_example :
  fst (getAll middleware_cookies
         (middleware_start {[ "a" := "1"; "b" := "2" ]}))
  = Returned [("a", "1"); ("b", "2")]
  ∧ snd (setAll middleware_cookies [cookie_c]
           (middleware_start {[ "a" := "1"; "b" := "2" ]}))
    = {| req_cookies := request_jar {[ "a" := "1"; "b" := "2"; "c" := "3" ]};
         res := {| res_cookies := {[ "c" := ("3", Some (only_path "/")) ]};
                   forwarded :=
                     Some (request_jar
                             {[ "a" := "1"; "b" := "2"; "c" := "3" ]}) |} |}.
Proof. split; reflexivity. Qed.

(** C6, as the code has it.  From the same incoming cookies and under the
    same calls, every [getAll()] returns the same at both sites; a [setAll]
    puts the same triples on the response at both sites when it is the only
    one of the run; in general the response of the middleware carries the
    triples of the last [setAll] alone, set on a response made anew, while
    the tRPC store adds them to those written before. *)
Theorem cookie_bridges_agree (cookies : gmap string string)
    (calls : list bridge_call) (cs : list CookieToSet) (a b : nat) :
  fst (middleware_observed cookies calls) = fst (trpc_observed cookies calls)
  ∧ snd (middleware_observed cookies
           (replicate a CallGetAll ++ CallSetAll cs :: replicate b CallGetAll))
    = snd (trpc_observed cookies
             (replicate a CallGetAll ++ CallSetAll cs
                :: replicate b CallGetAll))
  ∧ snd (middleware_observed cookies (calls ++ [CallSetAll cs]))
    = set_each cs ∅
  ∧ snd (trpc_observed cookies (calls ++ [CallSetAll cs]))
    = set_each cs (snd (trpc_observed cookies calls)).
Proof.
  split; [|split; [|split]].
  - unfold middleware_observed, trpc_observed. cbn zeta.
    destruct (drive_in_step calls _ _ (start_in_step cookies))
      as (reads & st' & j' & -> & -> & _).
    done.
  - destruct (observed_one_setAll cookies a b cs) as [-> ->]. done.
  - apply middleware_after_setAll.
  - apply trpc_after_setAll.
Qed.

(** Two [setAll] calls in one run: the response of the middleware has lost
    the cookie of the first, the tRPC store has kept it. *)
Lemma cookie_bridges_differ :
  snd (middleware_observed ∅ [CallSetAll [cookie_a]; CallSetAll [cookie_b]])
  = {[ "b" := ("2", Some (only_path "/")) ]}
  ∧ snd (trpc_observed ∅ [CallSetAll [cookie_a]; CallSetAll [cookie_b]])
    = {[ "a" := ("1", Some (only_path "/"));
         "b" := ("2", Some (only_path "/")) ]}
  ∧ middleware_observed ∅ [CallSetAll [cookie_a]; CallSetAll [cookie_b]]
    ≠ trpc_observed ∅ [CallSetAll [cookie_a]; CallSetAll [cookie_b]].
Proof.
  split; [reflexivity|]. split; [reflexivity|].
  intros Heq.
  apply (f_equal (λ o, snd o !! "a")) in Heq.
  vm_compute in Heq. discriminate.
Qed.

(** ** Failures of the vendor and of the framework *)

Section Failures.

Context {J : Type} `{CookieStore J}.
Implicit Types (st : Middleware J) (j : J).
Implicit Types (c : CookieToSet) (rest : list CookieToSet).

Lemma forEach_req_cookies_set_cons c rest st :
  forEach (λ c, req_cookies_set (name c) (value c)) (c :: rest) st
  = match store_set (name c) (value c) None (req_cookies st) with
    | Returned j =>
        forEach (λ c, req_cookies_set (name c) (value c)) rest
                {| req_cookies := j; res := res st |}
    | Threw e => (Threw e, st)
    end.
Proof.
  simpl. unfold bind, req_cookies_set, update.
  by destruct (store_set _ _ _ _).
Qed.

Lemma forEach_res_cookies_set_cons c rest st :
  forEach (λ c, res_cookies_set (name c) (value c) (options c)) (c :: rest) st
  = match store_set (name c) (value c) (Some (options c))
                    (res_cookies (res st)) with
    | Returned j =>
        forEach (λ c, res_cookies_set (name c) (value c) (options c)) rest
                {| req_cookies := req_cookies st;
                   res := {| res_cookies := j;
                             forwarded := forwarded (res st) |} |}
    | Threw e => (Threw e, st)
    end.
Proof.
  simpl. unfold bind, res_cookies_set, update.
  by destruct (store_set _ _ _ _).
Qed.

Lemma trpc_setAll_cons c rest j :
  setAll trpc_cookies (c :: rest) j
  = match store_set (name c) (value c) (Some (options c)) j with
    | Returned j' => setAll trpc_cookies rest j'
    | Threw e => (Threw e, j)
    end.
Proof. simpl. unfold bind, update. by destruct (store_set _ _ _ _). Qed.

Lemma middleware_setAll_cons c rest st :
  setAll middleware_cookies (c :: rest) st
  = match store_set (name c) (value c) None (req_cookies st) with
    | Returned j =>
        (forEach (λ c, req_cookies_set (name c) (value c)) rest ;;
         NextResponse_next ;;
         forEach (λ c, res_cookies_set (name c) (value c) (options c))
                 (c :: rest))
          {| req_cookies := j; res := res st |}
    | Threw e => (Threw e, st)
    end.
Proof.
  cbn [setAll middleware_cookies]. unfold bind at 1.
  rewrite forEach_req_cookies_set_cons.
  by destruct (store_set _ _ _ _).
Qed.

End Failures.

(** C9, as the code has it.  Nothing here catches, wraps or repeats a
    failing call.  What is thrown while the caller waits reaches the caller
    as it is: the first render of the provider ends as the browser
    constructor ends, after one call; the middleware and the tRPC context
    end as the server constructor ends, after one call; [getAll] ends as the
    jar's [getAll()] ends; a [setAll] whose write throws ends with that throw
    at that write, the later cookies untouched.  A rejection of the
    [getSession()] of the effect is not caught or repeated either, but it
    does not reach the caller of the hook: no callback runs, no second
    [getSession()] is issued, the rejection stays as it is on a promise
    nobody handles, and the hook returns to its caller what it returned
    before. *)
Theorem failures_pass_through {SupabaseClient : Type}
    (createBrowserClient :
       option string → option string → completion SupabaseClient)
    {J : Type} `{CookieStore J} (ServerClient : Type → Type)
    (createServerClient :
       ∀ St, option string → option string → CookieMethodsServer St →
             completion (ServerClient St))
    (env : ProcessEnv) (count : nat)
    (st : Middleware J) (j : J) (c : CookieToSet) (rest : list CookieToSet)
    {Session : Type} (w : Mirror Session) (e : Error)
    (ancestors : list (Context SupabaseClient)) :
  AuthProvider SupabaseClient createBrowserClient env None count
  = (match createBrowserClient (NEXT_PUBLIC_SUPABASE_URL env)
                               (NEXT_PUBLIC_SUPABASE_ANON_KEY env) with
     | Returned client =>
         Returned (ContextProvider {| supabase := client |}, Some client)
     | Threw e' => Threw e'
     end, S count)
  ∧ middleware_client ServerClient createServerClient env count
    = (createServerClient _ (NEXT_PUBLIC_SUPABASE_URL env)
         (NEXT_PUBLIC_SUPABASE_ANON_KEY env) middleware_cookies, S count)
  ∧ trpc_client ServerClient createServerClient env count
    = (createServerClient _ (NEXT_PUBLIC_SUPABASE_URL env)
         (NEXT_PUBLIC_SUPABASE_ANON_KEY env) trpc_cookies, S count)
  ∧ getAll middleware_cookies st = (store_getAll (req_cookies st), st)
  ∧ getAll trpc_cookies j = (store_getAll j, j)
  ∧ setAll middleware_cookies (c :: rest) st
    = match store_set (name c) (value c) None (req_cookies st) with
      | Returned j' =>
          (forEach (λ c, req_cookies_set (name c) (value c)) rest ;;
           NextResponse_next ;;
           forEach (λ c, res_cookies_set (name c) (value c) (options c))
                   (c :: rest))
            {| req_cookies := j'; res := res st |}
      | Threw e' => (Threw e', st)
      end
  ∧ forEach (λ c, res_cookies_set (name c) (value c) (options c))
            (c :: rest) st
    = match store_set (name c) (value c) (Some (options c))
                      (res_cookies (res st)) with
      | Returned j' =>
          forEach (λ c, res_cookies_set (name c) (value c) (options c)) rest
                  {| req_cookies := req_cookies st;
                     res := {| res_cookies := j';
                               forwarded := forwarded (res st) |} |}
      | Threw e' => (Threw e', st)
      end
  ∧ setAll trpc_cookies (c :: rest) j
    = match store_set (name c) (value c) (Some (options c)) j with
      | Returned j' => setAll trpc_cookies rest j'
      | Threw e' => (Threw e', j)
      end
  ∧ hook (step (GetSessionRejects e) (effect Session w)) = hook w
  ∧ unhandled (step (GetSessionRejects e) (effect Session w))
    = unhandled w ++ [e]
  ∧ getSession_calls (auth (step (GetSessionRejects e) (effect Session w)))
    = S (getSession_calls (auth w))
  ∧ pending (auth (step (GetSessionRejects e) (effect Session w)))
    = pending (auth w)
  ∧ useSessionContext ancestors
      (step (GetSessionRejects e) (effect Session w))
    = useSessionContext ancestors w.
Proof.
  split; [apply AuthProvider_first_render|].
  split; [reflexivity|]. split; [reflexivity|].
  split; [reflexivity|]. split; [reflexivity|].
  split; [apply middleware_setAll_cons|].
  split; [apply forEach_res_cookies_set_cons|].
  split; [apply trpc_setAll_cons|].
  by repeat split.
Qed.

(** A rejected [getSession()] before the caller of the hook: whatever the
    error, the next render returns, without an error and with [isLoading]
    still true; the error is on the unhandled promise alone. *)
Lemma rejection_not_seen_by_caller :
  useSessionContext [ContextProvider {| supabase := "client" |}]
    (run [EffectRuns; GetSessionRejects (mkError "network failure")]
         (@mount nat))
  = Returned {| session := None; isLoading := true;
                supabaseClient := "client" |}
  ∧ useSessionContext [ContextProvider {| supabase := "client" |}]
      (run [EffectRuns; GetSessionRejects (mkError "invalid token")]
           (@mount nat))
    = Returned {| session := None; isLoading := true;
                  supabaseClient := "client" |}
  ∧ unhandled (run [EffectRuns; GetSessionRejects (mkError "network failure")]
                   (@mount nat))
    = [mkError "network failure"].
Proof. by repeat split. Qed.

(** A store that cannot be written: the throw of its [set] is the throw of
    [setAll], at both sites, and of nothing else. *)
Lemma sealed_store_throws :
  setAll trpc_cookies [cookie_c; cookie_a] (Sealed ∅)
  = (Threw sealed_error, Sealed ∅)
  ∧ fst (setAll middleware_cookies [cookie_c; cookie_a]
           {| req_cookies := Sealed ∅;
              res := {| res_cookies := Sealed ∅; forwarded := None |} |})
    = Threw sealed_error
  ∧ fst (middleware_client _ (failing_createServerClient sealed_error)
           {| NEXT_PUBLIC_SUPABASE_URL := Some "https://project.example";
              NEXT_PUBLIC_SUPABASE_ANON_KEY := Some "anon-key" |} 0
         : completion (CookieMethodsServer (Middleware SealedJar)) * nat)
    = Threw sealed_error.
Proof. by repeat split. Qed.

(** * Further properties *)

(** ** The hooks *)

(** X1.  At one call site [useSupabase] and [useSessionContext] go the same
    way: either both return, and then the [supabaseClient] of the one is the
    client of the other, or both throw the same error; the state of the hook
    has no part in it. *)
Theorem hooks_hand_out_one_client {Session SupabaseClient : Type}
    (ancestors : list (Context SupabaseClient)) (w : Mirror Session) :
  on_return supabaseClient (useSessionContext ancestors w)
  = useSupabase ancestors
  ∧ did_throw (useSessionContext ancestors w)
    = did_throw (useSupabase ancestors).
Proof.
  unfold useSessionContext, useSupabase.
  by destruct (useSupabaseClient ancestors).
Qed.

(** X2.  [useSessionContext] throws exactly when no provider is mounted
    above it, in whatever state the instance is, and then it throws the
    error of the accessor. *)
Theorem useSessionContext_throws_iff_outside {Session SupabaseClient : Type}
    (ancestors : list (Context SupabaseClient)) (w : Mirror Session) :
  did_throw (useSessionContext ancestors w) = negb (inside_provider ancestors)
  ∧ (useSessionContext ancestors w = Threw usage_error
     ↔ inside_provider ancestors = false).
Proof.
  pose proof (useSupabaseClient_did_throw ancestors) as Hthrow.
  pose proof (useContext_outside ancestors) as Hout.
  unfold useSessionContext, useSupabaseClient in *.
  destruct (useContext ancestors) as [context|]; simpl in *.
  - split; [done|]. split; [discriminate|].
    intros Hf. rewrite Hf in Hthrow. discriminate.
  - split; [done|]. split; [intros _; by apply Hout|done].
Qed.

(** ** Counting what the session mirror does *)

Section MirrorCounts.

Context {Session : Type}.
Implicit Types (w : Mirror Session) (ev : event Session).
Implicit Types (trace : list (event Session)).
Implicit Types (s : option Session).

Lemma auth_notify s (l : list nat) w :
  auth (foldl (λ w' _, setSession Session s w') w l) = auth w.
Proof. by destruct (pending_notify s l w) as (-> & _). Qed.

Lemma unhandled_notify s (l : list nat) w :
  unhandled (foldl (λ w' _, setSession Session s w') w l) = unhandled w.
Proof. by destruct (pending_notify s l w) as (_ & _ & ->). Qed.

Lemma cleanup_notify s (l : list nat) w :
  cleanup (foldl (λ w' _, setSession Session s w') w l) = cleanup w.
Proof. by destruct (pending_notify s l w) as (_ & -> & _). Qed.

Lemma setIsLoading_calls_notify s (l : list nat) w :
  setIsLoading_calls (hook (foldl (λ w' _, setSession Session s w') w l))
  = setIsLoading_calls (hook w).
Proof. rewrite notify_listeners. by destruct l. Qed.

Lemma auth_run_cleanup_counts w :
  getSession_calls (auth (run_cleanup Session w)) = getSession_calls (auth w)
  ∧ pending (auth (run_cleanup Session w)) = pending (auth w)
  ∧ next_subscription (auth (run_cleanup Session w))
    = next_subscription (auth w)
  ∧ unhandled (run_cleanup Session w) = unhandled w.
Proof. unfold run_cleanup. by destruct (cleanup w). Qed.

(** One step: a fetch is issued by a run of the effect and by nothing
    else, and so is a subscription. *)
Lemma issued_step ev w :
  getSession_calls (auth (step ev w))
  = (if is_effect_run ev then 1 else 0) + getSession_calls (auth w)
  ∧ next_subscription (auth (step ev w))
    = (if is_effect_run ev then 1 else 0) + next_subscription (auth w).
Proof.
  destruct ev as [|s|e|name s|]; simpl.
  - by destruct (auth_run_cleanup_counts w) as (-> & _ & -> & _).
  - by destruct (pending (auth w)).
  - by destruct (pending (auth w)).
  - by rewrite auth_notify.
  - by destruct (auth_run_cleanup_counts w) as (-> & _ & -> & _).
Qed.

Lemma issued_run trace w :
  getSession_calls (auth (run trace w))
  = effect_runs trace + getSession_calls (auth w)
  ∧ next_subscription (auth (run trace w))
    = effect_runs trace + next_subscription (auth w).
Proof.
  revert w. induction trace as [|ev trace IH]; intros w; [done|].
  cbn [run foldl effect_runs].
  change (foldl _ (step ev w) trace) with (run trace (step ev w)).
  destruct (IH (step ev w)) as [-> ->].
  destruct (issued_step ev w) as [-> ->]. lia.
Qed.

Lemma fetches_accounted_step ev w :
  fetches_accounted w → fetches_accounted (step ev w).
Proof.
  unfold fetches_accounted, loading. intros [Hsum Hflag].
  destruct ev as [|s|e|name s|]; simpl.
  - destruct (auth_run_cleanup_counts w) as (-> & -> & _ & ->).
    rewrite hook_run_cleanup. split; [lia|done].
  - destruct (pending (auth w)) as [|p] eqn:Hp; [by rewrite Hp|].
    simpl. rewrite Hp. simpl. split; [lia|done].
  - destruct (pending (auth w)) as [|p] eqn:Hp; [by rewrite Hp|].
    simpl. rewrite Hp, length_app. simpl. split; [lia|done].
  - rewrite auth_notify, unhandled_notify, setIsLoading_calls_notify.
    split; [done|].
    rewrite notify_listeners. by destruct (listeners (auth w)).
  - destruct (auth_run_cleanup_counts w) as (-> & -> & _ & ->).
    rewrite hook_run_cleanup. split; [lia|done].
Qed.

Lemma fetches_accounted_run trace w :
  fetches_accounted w → fetches_accounted (run trace w).
Proof.
  revert w. induction trace as [|ev trace IH]; intros w Hw; [done|].
  simpl. apply IH. by apply fetches_accounted_step.
Qed.

Lemma newest_listener_step ev w :
  newest_listener w → newest_listener (step ev w).
Proof.
  unfold newest_listener. intros Hw.
  destruct ev as [|s|e|name s|]; simpl.
  - unfold run_cleanup.
    destruct (cleanup w) as [i|] eqn:E; simpl.
    + destruct Hw as [-> ->]. by rewrite filter_only_self.
    + by rewrite Hw.
  - by destruct (pending (auth w)).
  - by destruct (pending (auth w)).
  - by rewrite cleanup_notify, auth_notify.
  - unfold run_cleanup. destruct (cleanup w) as [i|] eqn:E; simpl.
    + destruct Hw as [-> _]. apply filter_only_self.
    + by rewrite E.
Qed.

Lemma newest_listener_run trace w :
  newest_listener w → newest_listener (run trace w).
Proof.
  revert w. induction trace as [|ev trace IH]; intros w Hw; [done|].
  simpl. apply IH. by apply newest_listener_step.
Qed.

End MirrorCounts.

Lemma fetches_accounted_mount {Session : Type} :
  fetches_accounted (@mount Session).
Proof. by split. Qed.

Lemma newest_listener_mount {Session : Type} :
  newest_listener (@mount Session).
Proof. reflexivity. Qed.

(** X4.  The hook does not poll: along any sequence of events the number of
    [getSession()] calls is the number of runs of the effect, and so is the
    number of subscriptions taken; no fulfilment, rejection, change event or
    teardown issues either. *)
Theorem one_fetch_per_effect_run {Session : Type}
    (trace : list (event Session)) :
  getSession_calls (auth (run trace mount)) = effect_runs trace
  ∧ next_subscription (auth (run trace mount)) = effect_runs trace.
Proof.
  destruct (issued_run trace (@mount Session)) as [-> ->].
  simpl. lia.
Qed.

(** X5.  Along any sequence of events every [getSession()] issued so far is
    still pending, or has been fulfilled (one [setIsLoading] call each), or
    has been rejected (one unhandled rejection each); and [isLoading] is true
    exactly as long as [setIsLoading] has not been called. *)
Theorem every_fetch_accounted {Session : Type} (trace : list (event Session)) :
  getSession_calls (auth (run trace mount))
  = pending (auth (run trace mount))
    + setIsLoading_calls (hook (run trace mount))
    + length (unhandled (run trace mount))
  ∧ loading (run trace mount)
    = bool_decide (setIsLoading_calls (hook (run trace mount)) = 0).
Proof.
  exact (fetches_accounted_run trace mount fetches_accounted_mount).
Qed.

(** X6.  However often the effect runs again, the client never holds more
    than one listener of the hook: none when no run of the effect is active,
    otherwise the one of the newest subscription. *)
Theorem never_two_listeners {Session : Type} (trace : list (event Session)) :
  length (listeners (auth (run trace (@mount Session)))) ≤ 1
  ∧ listeners (auth (run trace (@mount Session)))
    = match cleanup (run trace (@mount Session)) with
      | Some _ =>
          [pred (next_subscription (auth (run trace (@mount Session))))]
      | None => []
      end.
Proof.
  pose proof (newest_listener_run trace mount newest_listener_mount) as Hn.
  unfold newest_listener in Hn.
  destruct (cleanup (run trace mount)) as [i|].
  - destruct Hn as [-> ->]. simpl. split; [lia|done].
  - rewrite Hn. simpl. split; [lia|done].
Qed.

Section MirrorSession.

Context {Session : Type}.
Implicit Types (w : Mirror Session) (ev : event Session).
Implicit Types (s : option Session).

Lemma session_after_changes (l : list (string * option Session)) w i :
  listeners (auth w) = [i] →
  st_session (hook (run (change_events l) w))
  = default (st_session (hook w)) (last (snd <$> l)).
Proof.
  revert w. induction l as [|[name s] l IH]; intros w Hw; [done|].
  cbn [change_events map run foldl fst snd].
  change (foldl _ ?w' (map _ l)) with (run (change_events l) w').
  rewrite IH.
  - cbn [fmap list_fmap snd]. rewrite last_cons.
    simpl. rewrite Hw. simpl.
    change (list_fmap _ _ snd l) with (snd <$> l).
    by destruct (last (snd <$> l)).
  - simpl. by rewrite auth_notify.
Qed.

Lemma listeners_run_change_events (l : list (string * option Session)) w :
  listeners (auth (run (change_events l) w)) = listeners (auth w).
Proof. by rewrite auth_run_change_events. Qed.

Lemma stuck_step ev w :
  pending (auth w) = 0 → loading w = true → is_effect_run ev = false →
  pending (auth (step ev w)) = 0 ∧ loading (step ev w) = true.
Proof.
  intros Hp Hl Hev. destruct ev as [|s|e|name s|]; simpl.
  - discriminate.
  - by rewrite Hp.
  - by rewrite Hp.
  - by rewrite auth_notify, loading_notify.
  - destruct (auth_run_cleanup_counts w) as (_ & -> & _).
    unfold loading in *. by rewrite hook_run_cleanup.
Qed.

Lemma stuck_run (trace : list (event Session)) w :
  pending (auth w) = 0 → loading w = true →
  forallb (λ ev, negb (is_effect_run ev)) trace = true →
  loading (run trace w) = true.
Proof.
  revert w. induction trace as [|ev trace IH]; intros w Hp Hl Hall; [done|].
  simpl in Hall. apply andb_prop in Hall as [Hev Hall].
  apply negb_true_iff in Hev.
  destruct (stuck_step ev w Hp Hl Hev) as [Hp' Hl'].
  simpl. by apply IH.
Qed.

End MirrorSession.

(** X7.  The session the hook shows is the one delivered last.  When the
    fetch of the effect fulfils after some change events, the fetched session
    replaces what those events stored, newer or not; change events after the
    fulfilment replace the fetched session in turn. *)
Theorem last_delivery_wins {Session : Type}
    (before after : list (string * option Session)) (s : option Session) :
  st_session (hook (run (EffectRuns :: change_events before
                           ++ [GetSessionResolves s]) mount))
  = s
  ∧ Some (st_session
            (hook (run (EffectRuns :: change_events before
                          ++ GetSessionResolves s :: change_events after)
                       mount)))
    = last (s :: (snd <$> after)).
Proof.
  assert (∀ later,
    st_session (hook (run (EffectRuns :: change_events before
                             ++ GetSessionResolves s :: change_events later)
                          mount))
    = default s (last (snd <$> later))) as Hgen.
  { intros later. cbn [run foldl]. rewrite foldl_app. cbn [foldl].
    change (foldl _ ?w' (change_events later))
      with (run (change_events later) w').
    change (foldl _ ?w' (change_events before))
      with (run (change_events before) w').
    set (w1 := step EffectRuns (@mount Session)).
    pose proof (auth_run_change_events before w1) as Hauth.
    assert (step (GetSessionResolves s) (run (change_events before) w1)
            = setIsLoading Session false
                (setSession Session s
                   (settle Session (run (change_events before) w1)))) as ->.
    { simpl. by rewrite Hauth. }
    rewrite (session_after_changes later _ 0); [done|].
    simpl. by rewrite Hauth. }
  split.
  - apply (Hgen []).
  - rewrite Hgen, last_cons. by destruct (last (snd <$> after)).
Qed.

(** X8.  When the fetch of the effect rejects, [isLoading] stays true: as
    long as the effect does not run again, no change event, late settlement
    or teardown turns it off. *)
Theorem rejected_fetch_keeps_loading {Session : Type}
    (before : list (string * option Session)) (e : Error)
    (later : list (event Session)) :
  forallb (λ ev, negb (is_effect_run ev)) later = true →
  loading (run (EffectRuns :: change_events before
                  ++ GetSessionRejects e :: later) mount) = true.
Proof.
  intros Hlater. cbn [run foldl]. rewrite foldl_app. cbn [foldl].
  change (foldl _ ?w' later) with (run later w').
  change (foldl _ ?w' (change_events before))
    with (run (change_events before) w').
  set (w1 := step EffectRuns (@mount Session)).
  pose proof (auth_run_change_events before w1) as Hauth.
  pose proof (loading_run_change_events before w1) as Hload.
  assert (step (GetSessionRejects e) (run (change_events before) w1)
          = reject_unhandled Session e
              (settle Session (run (change_events before) w1))) as ->.
  { simpl. by rewrite Hauth. }
  apply stuck_run; [| |done].
  - simpl. by rewrite Hauth.
  - exact Hload.
Qed.

Lemma rejected_fetch_keeps_loading_witness :
  forallb (λ ev, negb (is_effect_run ev))
          [AuthStateChanges "SIGNED_IN" (Some 4); GetSessionResolves (Some 9);
           Unmounts] = true
  ∧ loading (run (EffectRuns :: change_events [("INITIAL_SESSION", Some 3)]
                    ++ GetSessionRejects (mkError "network")
                    :: [AuthStateChanges "SIGNED_IN" (Some 4);
                        GetSessionResolves (Some 9); Unmounts])
                 (@mount nat)) = true.
Proof.
  split; [reflexivity|].
  apply (rejected_fetch_keeps_loading [("INITIAL_SESSION", Some 3)]
           (mkError "network")
           [AuthStateChanges "SIGNED_IN" (Some 4);
            GetSessionResolves (Some 9); Unmounts]).
  reflexivity.
Defined.

(** ** What [setAll] leaves in the jars *)

Section JarFacts.

Implicit Types (j : CookieJar) (st : Middleware CookieJar).
Implicit Types (c : CookieToSet) (cs : list CookieToSet).
Implicit Types (n : string).

Lemma set_each_lookup_last cs j n :
  set_each cs j !! n
  = match last_named n cs with
    | Some c => Some (value c, Some (options c))
    | None => j !! n
    end.
Proof.
  revert j. induction cs as [|c cs IH]; intros j; [done|].
  change (set_each (c :: cs) j)
    with (set_each cs (<[name c := (value c, Some (options c))]> j)).
  rewrite IH. cbn [last_named].
  destruct (last_named n cs) as [c'|]; [done|].
  destruct (decide (name c = n)) as [<-|Hne].
  - apply lookup_insert_eq.
  - by apply lookup_insert_ne.
Qed.

Lemma set_each_bare_lookup_last cs j n :
  set_each_bare cs j !! n
  = match last_named n cs with
    | Some c => Some (value c, None)
    | None => j !! n
    end.
Proof.
  revert j. induction cs as [|c cs IH]; intros j; [done|].
  change (set_each_bare (c :: cs) j)
    with (set_each_bare cs (<[name c := (value c, None)]> j)).
  rewrite IH. cbn [last_named].
  destruct (last_named n cs) as [c'|]; [done|].
  destruct (decide (name c = n)) as [<-|Hne].
  - apply lookup_insert_eq.
  - by apply lookup_insert_ne.
Qed.

Lemma set_each_twice cs j : set_each cs (set_each cs j) = set_each cs j.
Proof.
  apply map_eq. intros n. rewrite !set_each_lookup_last.
  by destruct (last_named n cs).
Qed.

Lemma set_each_bare_twice cs j :
  set_each_bare cs (set_each_bare cs j) = set_each_bare cs j.
Proof.
  apply map_eq. intros n. rewrite !set_each_bare_lookup_last.
  by destruct (last_named n cs).
Qed.

Lemma set_each_app cs1 cs2 j :
  set_each (cs1 ++ cs2) j = set_each cs2 (set_each cs1 j).
Proof. apply foldl_app. Qed.

Lemma set_each_bare_app cs1 cs2 j :
  set_each_bare (cs1 ++ cs2) j = set_each_bare cs2 (set_each_bare cs1 j).
Proof. apply foldl_app. Qed.

End JarFacts.

(** X9.  After [setAll(cookiesToSet)] in the middleware, whatever the list
    (empty, or with a name more than once): the response holds, for each name
    of the list, the value and the attributes of the last triple with that
    name, and no other cookie; the request holds that value under each such
    name and keeps every other cookie it had; and the response forwards the
    request as it then is. *)
Theorem middleware_setAll_lookup (cs : list CookieToSet)
    (st : Middleware CookieJar) (n : string) :
  res_cookies (res (snd (setAll middleware_cookies cs st))) !! n
  = match last_named n cs with
    | Some c => Some (value c, Some (options c))
    | None => None
    end
  ∧ req_cookies (snd (setAll middleware_cookies cs st)) !! n
    = match last_named n cs with
      | Some c => Some (value c, None)
      | None => req_cookies st !! n
      end
  ∧ forwarded (res (snd (setAll middleware_cookies cs st)))
    = Some (req_cookies (snd (setAll middleware_cookies cs st))).
Proof.
  rewrite middleware_setAll. cbn [snd res res_cookies req_cookies forwarded].
  rewrite set_each_lookup_last, set_each_bare_lookup_last.
  split; [|done]. by destruct (last_named n cs).
Qed.

(** X10.  After [setAll(cookiesToSet)] in the tRPC context the store holds,
    for each name of the list, the value and the attributes of the last
    triple with that name, and every other cookie as it was. *)
Theorem trpc_setAll_lookup (cs : list CookieToSet) (j : CookieJar)
    (n : string) :
  snd (setAll trpc_cookies cs j) !! n
  = match last_named n cs with
    | Some c => Some (value c, Some (options c))
    | None => j !! n
    end.
Proof. rewrite trpc_setAll. apply set_each_lookup_last. Qed.

(** X11.  Repeating a [setAll] changes nothing: two calls with the same list
    leave what one call leaves, at both sites. *)
Theorem setAll_twice (cs : list CookieToSet) (st : Middleware CookieJar)
    (j : CookieJar) :
  (setAll middleware_cookies cs ;; setAll middleware_cookies cs) st
  = setAll middleware_cookies cs st
  ∧ (setAll trpc_cookies cs ;; setAll trpc_cookies cs) j
    = setAll trpc_cookies cs j.
Proof.
  unfold bind. rewrite !middleware_setAll, !trpc_setAll.
  cbn [req_cookies]. by rewrite set_each_bare_twice, set_each_twice.
Qed.

(** What the response held before a [setAll] of the middleware has no
    part in what it holds after: two runs that differ in the earlier response
    alone end the same.  With the empty list the response ends without
    cookies. *)
Theorem middleware_setAll_forgets_response (cs : list CookieToSet)
    (request : CookieJar) (res1 res2 : NextResponse CookieJar) :
  setAll middleware_cookies cs {| req_cookies := request; res := res1 |}
  = setAll middleware_cookies cs {| req_cookies := request; res := res2 |}
  ∧ setAll middleware_cookies [] {| req_cookies := request; res := res1 |}
    = (Returned (),
       {| req_cookies := request;
          res := {| res_cookies := ∅; forwarded := Some request |} |}).
Proof. by rewrite !middleware_setAll. Qed.

(** X12.  A [getAll()] after a [setAll] reads what was written: at both
    sites the list it returns has a pair for a name exactly when the last
    triple of that name in the list has this value or, for a name the list
    does not have, the cookie was there before with this value. *)
Theorem getAll_reads_what_setAll_wrote (cs : list CookieToSet)
    (st : Middleware CookieJar) (j : CookieJar) (n v : string) :
  (setAll middleware_cookies cs ;; getAll middleware_cookies) st
  = (Returned (map_to_list (fst <$> set_each_bare cs (req_cookies st))),
     snd (setAll middleware_cookies cs st))
  ∧ ((n, v) ∈ map_to_list (fst <$> set_each_bare cs (req_cookies st))
     ↔ match last_named n cs with
       | Some c => v = value c
       | None => fst <$> req_cookies st !! n = Some v
       end)
  ∧ (setAll trpc_cookies cs ;; getAll trpc_cookies) j
    = (Returned (map_to_list (fst <$> set_each cs j)),
       snd (setAll trpc_cookies cs j))
  ∧ ((n, v) ∈ map_to_list (fst <$> set_each cs j)
     ↔ match last_named n cs with
       | Some c => v = value c
       | None => fst <$> j !! n = Some v
       end).
Proof.
  split; [|split; [|split]].
  - unfold bind. by rewrite middleware_setAll.
  - rewrite elem_of_map_to_list, lookup_fmap, set_each_bare_lookup_last.
    destruct (last_named n cs) as [c|]; simpl; [|done].
    split; [by intros [= ->]|by intros ->].
  - unfold bind. by rewrite trpc_setAll.
  - rewrite elem_of_map_to_list, lookup_fmap, set_each_lookup_last.
    destruct (last_named n cs) as [c|]; simpl; [|done].
    split; [by intros [= ->]|by intros ->].
Qed.

(** ** A throw in the middle of a [setAll] *)

Section PartialFailure.

Context {J : Type} `{CookieStore J}.
Implicit Types (st : Middleware J) (j : J).
Implicit Types (c : CookieToSet) (cs rest : list CookieToSet).

Lemma forEach_app {S A} (f : A → M S ()) (l1 l2 : list A) (s : S) :
  forEach f (l1 ++ l2) s
  = match forEach f l1 s with
    | (Returned _, s1) => forEach f l2 s1
    | (Threw e, s1) => (Threw e, s1)
    end.
Proof.
  revert s. induction l1 as [|x l1 IH]; intros s; [done|].
  simpl. unfold bind. destruct (f x s) as [[[]|e] s1]; [apply IH|done].
Qed.

(** The loop over the request jar does not touch the response. *)
Lemma forEach_req_cookies_set_res cs st :
  res (snd (forEach (λ c, req_cookies_set (name c) (value c)) cs st))
  = res st.
Proof.
  revert st. induction cs as [|c cs IH]; intros st; [done|].
  rewrite forEach_req_cookies_set_cons.
  destruct (store_set _ _ _ _) as [j|e]; [|done].
  by rewrite IH.
Qed.

End PartialFailure.

(** X13.  In the tRPC context, when the write of one cookie throws after the
    writes before it went through, [setAll] ends with that error and the
    store as those writes left it: they are not undone, and the cookies after
    the failing one are not written. *)
Theorem trpc_setAll_stops_at_throw {J : Type} `{CookieStore J}
    (written_before rest : list CookieToSet) (c : CookieToSet) (j j' : J)
    (e : Error) :
  setAll trpc_cookies written_before j = (Returned (), j') →
  store_set (name c) (value c) (Some (options c)) j' = Threw e →
  setAll trpc_cookies (written_before ++ c :: rest) j = (Threw e, j').
Proof.
  intros Hbefore Hthrow. cbn [setAll trpc_cookies] in *.
  rewrite forEach_app, Hbefore.
  simpl. unfold bind, update. by rewrite Hthrow.
Qed.

Lemma trpc_setAll_stops_at_throw_witness :
  setAll trpc_cookies [cookie_a] (Strict ∅)
  = (Returned (), Strict {[ "a" := ("1", Some (only_path "/")) ]})
  ∧ setAll trpc_cookies ([cookie_a] ++ cookie_nameless :: [cookie_b])
      (Strict ∅)
    = (Threw invalid_name_error,
       Strict {[ "a" := ("1", Some (only_path "/")) ]}).
Proof.
  split; [reflexivity|].
  apply (trpc_setAll_stops_at_throw [cookie_a] [cookie_b] cookie_nameless
           (Strict ∅) (Strict {[ "a" := ("1", Some (only_path "/")) ]})
           invalid_name_error);
    reflexivity.
Defined.

(** X14.  In the middleware, when a write on the request jar throws after
    the writes before it went through, [setAll] ends with that error before
    any response is made: the response is the one from before the call, the
    request keeps the cookies already set on it, and nothing later is
    written. *)
Theorem middleware_setAll_stops_at_throw {J : Type} `{CookieStore J}
    (written_before rest : list CookieToSet) (c : CookieToSet)
    (st st' : Middleware J) (e : Error) :
  forEach (λ c, req_cookies_set (name c) (value c)) written_before st
  = (Returned (), st') →
  store_set (name c) (value c) None (req_cookies st') = Threw e →
  setAll middleware_cookies (written_before ++ c :: rest) st = (Threw e, st')
  ∧ res st' = res st.
Proof.
  intros Hbefore Hthrow. split.
  - cbn [setAll middleware_cookies]. unfold bind at 1.
    rewrite forEach_app, Hbefore, forEach_req_cookies_set_cons.
    by rewrite Hthrow.
  - pose proof (forEach_req_cookies_set_res written_before st) as Hres.
    by rewrite Hbefore in Hres.
Qed.

Lemma middleware_setAll_stops_at_throw_witness :
  setAll middleware_cookies ([cookie_a] ++ cookie_nameless :: [cookie_b])
    {| req_cookies := Strict ∅;
       res := {| res_cookies := Strict {[ "old" := ("0", None) ]};
                 forwarded := None |} |}
  = (Threw invalid_name_error,
     {| req_cookies := Strict {[ "a" := ("1", None) ]};
        res := {| res_cookies := Strict {[ "old" := ("0", None) ]};
                  forwarded := None |} |})
  ∧ res {| req_cookies := Strict {[ "a" := ("1", None) ]};
           res := {| res_cookies := Strict {[ "old" := ("0", None) ]};
                     forwarded := None |} |}
    = res {| req_cookies := Strict ∅;
             res := {| res_cookies := Strict {[ "old" := ("0", None) ]};
                       forwarded := None |} |}.
Proof.
  apply (middleware_setAll_stops_at_throw [cookie_a] [cookie_b]
           cookie_nameless); reflexivity.
Defined.

(** ** The response after any run *)

Section Runs.

Implicit Types (j : CookieJar) (st : Middleware CookieJar).
Implicit Types (calls : list bridge_call).

Lemma drive_trpc_returns calls j :
  ∃ reads,
    drive trpc_cookies calls j = (Returned reads, set_each (all_set calls) j).
Proof.
  revert j. induction calls as [|[|cs] calls IH]; intros j.
  - by exists [].
  - destruct (IH j) as [reads Hd].
    exists (map_to_list (fst <$> j) :: reads).
    cbn [drive all_set]. unfold bind at 1. rewrite trpc_getAll.
    unfold bind. by rewrite Hd.
  - destruct (IH (set_each cs j)) as [reads Hd]. exists reads.
    cbn [drive all_set]. unfold bind. rewrite trpc_setAll.
    by rewrite Hd, set_each_app.
Qed.

Lemma drive_middleware_returns calls st :
  ∃ reads st',
    drive middleware_cookies calls st = (Returned reads, st')
    ∧ res_cookies (res st')
      = match last_set calls with
        | Some cs => set_each cs ∅
        | None => res_cookies (res st)
        end.
Proof.
  revert st. induction calls as [|[|cs] calls IH]; intros st.
  - by exists [], st.
  - destruct (IH st) as (reads & st' & Hd & Hr).
    exists (map_to_list (fst <$> req_cookies st) :: reads), st'.
    cbn [drive last_set]. unfold bind at 1. rewrite middleware_getAll.
    unfold bind. by rewrite Hd.
  - destruct (IH {| req_cookies := set_each_bare cs (req_cookies st);
                    res := {| res_cookies := set_each cs ∅;
                              forwarded :=
                                Some (set_each_bare cs (req_cookies st)) |} |})
      as (reads & st' & Hd & Hr).
    exists reads, st'.
    cbn [drive last_set]. unfold bind. rewrite middleware_setAll.
    split; [done|]. rewrite Hr. by destruct (last_set calls).
Qed.

End Runs.

(** X15.  After any run of [getAll] and [setAll] calls, from any incoming
    cookies: the cookies the tRPC context has written are those of all its
    [setAll] calls together, set in order; the response of the middleware
    carries those of its last [setAll] alone, and none when there was no
    [setAll]; no call has thrown. *)
Theorem responses_after_any_run (cookies : gmap string string)
    (calls : list bridge_call) :
  snd (trpc_observed cookies calls) = set_each (all_set calls) ∅
  ∧ snd (middleware_observed cookies calls)
    = match last_set calls with
      | Some cs => set_each cs ∅
      | None => ∅
      end
  ∧ did_throw (fst (trpc_observed cookies calls)) = false
  ∧ did_throw (fst (middleware_observed cookies calls)) = false.
Proof.
  unfold trpc_observed, middleware_observed. cbn zeta.
  destruct (drive_trpc_returns calls (trpc_start cookies)) as [reads ->].
  destruct (drive_middleware_returns calls (middleware_start cookies))
    as (reads' & st' & -> & Hres).
  cbn [fst snd]. rewrite Hres.
  unfold trpc_start. rewrite written_set_each, written_request_jar.
  by repeat split.
Qed.
